(** * Copy control of [Apple] (class/copy_control/function.cpp)

    A shallow embedding of the C++ program: the class [Apple] with its
    default constructor, copy constructor and copy-assignment operator, the
    three free functions [func], [r_func], [p_func] and [main].

    The program is modelled over an explicit store: automatic storage for
    [Apple] objects, the free store for the [string]s behind
    [shared_ptr<string>] (each with its use count), and the lines written to
    [cout].  Every function of the source is a computation in a state monad
    with failure ([None]); failure stands for undefined behaviour
    (dereferencing a null or dangling pointer, using a dead object). *)

From Stdlib Require Import ZArith String.
From stdpp Require Import base option gmap strings list fin_maps.

(** ** Data model *)

(** Addresses of [Apple] objects and of [string]s on the free store. *)
Abbreviation addr := positive (only parsing).
Abbreviation loc := positive (only parsing).

(** [shared_ptr<string>]: empty (null) or the location of the managed
    string. *)
Abbreviation shared_ptr := (option positive) (only parsing).

(** A managed [string] together with the use count of its control block. *)
Record cell : Type := Cell { str : string; use_count : nat }.

(** [class Apple { shared_ptr<string> name; }] *)
Record Apple : Type := MkApple { name : shared_ptr }.

(** The store of the running program. *)
Record state : Type := State {
  objs : gmap positive Apple;   (* live [Apple] objects, by address *)
  heap : gmap positive cell;    (* live managed strings, by location *)
  out : list string             (* lines written to [cout], oldest first *)
}.

Global Instance cell_eq_dec : EqDecision cell.
Proof. solve_decision. Defined.
Global Instance Apple_eq_dec : EqDecision Apple.
Proof. solve_decision. Defined.

Definition set_objs (f : gmap positive Apple → gmap positive Apple) (σ : state) : state :=
  State (f (objs σ)) (heap σ) (out σ).
Definition set_heap (f : gmap positive cell → gmap positive cell) (σ : state) : state :=
  State (objs σ) (f (heap σ)) (out σ).
Definition set_out (f : list string → list string) (σ : state) : state :=
  State (objs σ) (heap σ) (f (out σ)).

(** The addresses handed out by [new], [make_shared] and by the placement of
    automatic variables are not fixed by the language: any address that is
    not in use may be returned.  The program is therefore modelled over an
    arbitrary allocator. *)
Class Allocator : Type := {
  pick_loc : state → loc;
  pick_loc_fresh : ∀ σ, heap σ !! pick_loc σ = None;
  pick_addr : state → addr;
  pick_addr_fresh : ∀ σ, objs σ !! pick_addr σ = None
}.

(** One owner of the string [c] at [l] goes away. *)
Definition drop_ref (l : loc) (c : cell) (h : gmap positive cell) : gmap positive cell :=
  if decide (use_count c ≤ 1) then delete l h
  else <[l := Cell (str c) (use_count c - 1)]> h.

(** ** The monad of computations *)

Definition M (A : Type) : Type := state → option (A * state).

Global Instance M_ret : MRet M := λ A x σ, Some (x, σ).
Global Instance M_bind : MBind M := λ A B f m σ,
  match m σ with
  | Some (x, σ') => f x σ'
  | None => None
  end.

(** [cout << s << endl] *)
Definition print (s : string) : M unit :=
  λ σ, Some ((), set_out (λ o, o ++ [s]) σ).

Section program.
Context `{Allocator}.

(** *** [shared_ptr<string>] *)

(** [shared_ptr<string>(new string(s))] and [make_shared<string>(s)]: a
    string with content [s] is allocated at an unused location and the
    pointer becomes its only owner. *)
Definition make_shared (s : string) : M shared_ptr :=
  λ σ, let l := pick_loc σ in
       Some (Some l, set_heap (insert l (Cell s 1)) σ).

(** [*p] *)
Definition deref (p : shared_ptr) : M string :=
  λ σ, match p with
       | Some l => match heap σ !! l with
                   | Some c => Some (str c, σ)
                   | None => None
                   end
       | None => None
       end.

(** The destructor of a [shared_ptr]: the use count drops by one and the
    string is deleted when the last owner goes away. *)
Definition release (p : shared_ptr) : M unit :=
  λ σ, match p with
       | None => Some ((), σ)
       | Some l =>
         match heap σ !! l with
         | Some c => Some ((), set_heap (drop_ref l c) σ)
         | None => None
         end
       end.

(** *** Access to [Apple] objects *)

(** [a.name] as an rvalue. *)
Definition get_name (a : addr) : M shared_ptr :=
  λ σ, match objs σ !! a with
       | Some o => Some (name o, σ)
       | None => None
       end.

(** Initialisation of the member [name] of the object under construction
    at [this]. *)
Definition init_name (this : addr) (p : shared_ptr) : M unit :=
  λ σ, Some ((), set_objs (insert this (MkApple p)) σ).

(** [name = std::move(tmp)]: the object takes over [p]; the pointer it
    held before is handed back, to be destroyed with the temporary. *)
Definition swap_name (this : addr) (p : shared_ptr) : M shared_ptr :=
  λ σ, match objs σ !! this with
       | Some o => Some (name o, set_objs (insert this (MkApple p)) σ)
       | None => None
       end.

(** *** Special member functions of [Apple] *)

(** [Apple() : name(new string) { cout << "default constructor" << endl; }] *)
Definition Apple_default (this : addr) : M unit :=
  p ← make_shared "";
  init_name this p;;
  print "default constructor".

(** [Apple(const Apple &copy_instance) : name(new string( *copy_instance.name))
    { cout << "copy constructor" << endl; }] *)
Definition Apple_copy (this copy_instance : addr) : M unit :=
  q ← get_name copy_instance;
  s ← deref q;
  p ← make_shared s;
  init_name this p;;
  print "copy constructor".

(** [Apple &operator=(const Apple &op)
    { name = make_shared<string>( *op.name); cout << "operator=" << endl;
      return *this; }] *)
Definition Apple_assign (this op : addr) : M addr :=
  q ← get_name op;
  s ← deref q;
  p ← make_shared s;
  old ← swap_name this p;
  release old;;
  print "operator=";;
  mret this.

(** The implicit destructor [~Apple()] destroys the member [name]; the
    storage of the object is given back afterwards. *)
Definition Apple_dtor (this : addr) : M unit :=
  p ← get_name this;
  release p.

(** End of the lifetime of an automatic variable: its storage no longer
    holds an object. *)
Definition dealloc (a : addr) : M unit :=
  λ σ, Some ((), set_objs (delete a) σ).

Definition destroy (a : addr) : M unit :=
  Apple_dtor a;;
  dealloc a.

(** Storage for a new automatic variable. *)
Definition alloca : M addr := λ σ, Some (pick_addr σ, σ).

(** *** Free functions *)

(** [void func(Apple app) { cout << "func" << endl; }] *)
Definition func (app : addr) : M unit := print "func".

(** [void r_func(Apple &app) { cout << "r_func" << endl; }] *)
Definition r_func (app : addr) : M unit := print "r_func".

(** [void p_func(Apple *app) { cout << "p_func" << endl; }]; a pointer may
    be null. *)
Definition p_func (app : option addr) : M unit := print "p_func".

(** The call expression [func(x)]: the parameter [app] is copy-initialised
    from the argument, the body runs, and the parameter is destroyed when
    the call returns. *)
Definition call_func (x : addr) : M unit :=
  app ← alloca;
  Apple_copy app x;;
  func app;;
  destroy app.

(** [int main(void)] *)
Definition main : M Z :=
  _1 ← alloca; Apple_default _1;;          (* Apple _1;      *)
  _2 ← alloca; Apple_copy _2 _1;;          (* Apple _2(_1);  *)
  _3 ← alloca; Apple_copy _3 _2;;          (* Apple _3 = _2; *)
  print "test func parameter";;
  call_func _1;;
  r_func _1;;
  p_func (Some _1);;
  (* return 0; the automatic variables die in reverse order *)
  destroy _3;; destroy _2;; destroy _1;;
  mret 0%Z.

End program.

(** ** Observations on the store *)

(** The location an instance's [name] points to, if the instance is alive
    and its pointer is not null. *)
Definition payload_loc (σ : state) (a : addr) : option loc :=
  o ← objs σ !! a; name o.

(** The content of an instance's payload, [*a.name]. *)
Definition payload (σ : state) (a : addr) : option string :=
  l ← payload_loc σ a; c ← heap σ !! l; Some (str c).

(** What a user of the program sees of a run: the exit code and the lines
    on standard output; [None] if the run has undefined behaviour. *)
Definition observe {A : Type} (r : option (A * state)) : option (A * list string) :=
  match r with
  | Some (x, σ) => Some (x, out σ)
  | None => None
  end.

(** The program starts with nothing written to [cout]; what else lives in
    memory at that point is left open. *)
Definition start (os : gmap positive Apple) (h : gmap positive cell) : state :=
  State os h [].

(** ** The class invariant *)

(** The member [name] of [o] points to a live string of which it is the only
    owner. *)
Definition owns (σ : state) (o : Apple) : Prop :=
  match name o with
  | Some l =>
    match heap σ !! l with
    | Some c => use_count c = 1
    | None => False
    end
  | None => False
  end.

Global Instance owns_dec σ o : Decision (owns σ o).
Proof.
  unfold owns. destruct (name o) as [l|]; [|apply _].
  destruct (heap σ !! l); apply _.
Defined.

(** Every live instance owns its payload, and no two instances share one. *)
Definition inv (σ : state) : Prop :=
  map_Forall (λ _ o, owns σ o) (objs σ) ∧
  map_Forall (λ a o, map_Forall (λ b o', name o = name o' → a = b) (objs σ)) (objs σ).

Global Instance inv_dec σ : Decision (inv σ).
Proof. unfold inv. apply _. Defined.

(** ** A concrete allocator *)

(** The allocator that hands out the first address past those in use. *)
Definition first_free : Allocator := {|
  pick_loc σ := fresh (dom (heap σ));
  pick_loc_fresh σ :=
    proj1 (not_elem_of_dom (heap σ) _) (is_fresh (dom (heap σ)));
  pick_addr σ := fresh (dom (objs σ));
  pick_addr_fresh σ :=
    proj1 (not_elem_of_dom (objs σ) _) (is_fresh (dom (objs σ)))
|}.

(** ** An example store *)

(** Three instances, each with a payload of its own. *)
Definition basket : state :=
  State {[ 1%positive := MkApple (Some 1%positive);
           2%positive := MkApple (Some 2%positive);
           3%positive := MkApple (Some 3%positive) ]}
        {[ 1%positive := Cell "fuji" 1;
           2%positive := Cell "" 1;
           3%positive := Cell "gala" 1 ]}
        ["default constructor"].

(** ** Repeated calls *)

(** A sequence of calls of [r_func] and [p_func] on one instance. *)
Inductive call : Type := by_reference | by_pointer.

Definition do_call (x : positive) (k : call) : M unit :=
  match k with
  | by_reference => r_func x
  | by_pointer => p_func (Some x)
  end.

Fixpoint do_calls (x : positive) (ks : list call) : M unit :=
  match ks with
  | [] => mret ()
  | k :: ks => do_call x k;; do_calls x ks
  end.

(** The line each call writes. *)
Definition line_of (k : call) : string :=
  match k with
  | by_reference => "r_func"
  | by_pointer => "p_func"
  end.

(** ** The output of the program *)

(** The lines [main] writes. *)
Definition main_lines : list string :=
  ["default constructor"; "copy constructor"; "copy constructor";
   "test func parameter"; "copy constructor"; "func"; "r_func"; "p_func"].

(** ** No string is left behind *)

(** Every live string is the payload of some live instance: nothing on the
    free store has been leaked. *)
Definition tidy (σ : state) : Prop :=
  map_Forall (λ l _, map_Exists (λ _ o, name o = Some l) (objs σ)) (heap σ).

Global Instance tidy_dec σ : Decision (tidy σ).
Proof. unfold tidy. apply _. Defined.

(** * Properties *)

(** ** Running the operations *)

Section runs.
Context `{Allocator}.
Implicit Types (σ : state) (a this : positive) (l : positive) (c : cell).

Lemma bind_run {A B : Type} (m : M A) (f : A → M B) σ :
  (m ≫= f) σ = match m σ with Some (x, σ') => f x σ' | None => None end.
Proof. reflexivity. Qed.

Lemma payload_loc_Some σ a l :
  payload_loc σ a = Some l ↔ objs σ !! a = Some (MkApple (Some l)).
Proof.
  unfold payload_loc. split.
  - destruct (objs σ !! a) as [[p]|]; simpl; [|done]. by intros ->.
  - by intros ->.
Qed.

Lemma payload_Some σ a s :
  payload σ a = Some s ↔
  ∃ l c, objs σ !! a = Some (MkApple (Some l)) ∧ heap σ !! l = Some c ∧ str c = s.
Proof.
  unfold payload. split.
  - destruct (payload_loc σ a) as [l|] eqn:Hl; simpl; [|done].
    apply payload_loc_Some in Hl.
    destruct (heap σ !! l) as [c|] eqn:Hc; simpl; [|done].
    intros [= <-]. by exists l, c.
  - intros (l & c & Ha & Hc & <-).
    apply payload_loc_Some in Ha. rewrite Ha. simpl. by rewrite Hc.
Qed.

(** A location in use is never the one the allocator hands out. *)
Lemma pick_loc_ne σ l c : heap σ !! l = Some c → pick_loc σ ≠ l.
Proof. intros Hl Heq. rewrite <- Heq, pick_loc_fresh in Hl. done. Qed.

Lemma pick_addr_ne σ a o : objs σ !! a = Some o → pick_addr σ ≠ a.
Proof. intros Ha Heq. rewrite <- Heq, pick_addr_fresh in Ha. done. Qed.

Lemma print_run s σ :
  print s σ = Some ((), State (objs σ) (heap σ) (out σ ++ [s])).
Proof. reflexivity. Qed.

Lemma Apple_default_run this σ :
  Apple_default this σ =
  Some ((), State (<[this := MkApple (Some (pick_loc σ))]> (objs σ))
                  (<[pick_loc σ := Cell "" 1]> (heap σ))
                  (out σ ++ ["default constructor"])).
Proof. reflexivity. Qed.

Lemma Apple_copy_run this a l c σ :
  objs σ !! a = Some (MkApple (Some l)) →
  heap σ !! l = Some c →
  Apple_copy this a σ =
  Some ((), State (<[this := MkApple (Some (pick_loc σ))]> (objs σ))
                  (<[pick_loc σ := Cell (str c) 1]> (heap σ))
                  (out σ ++ ["copy constructor"])).
Proof.
  intros Ha Hl. unfold Apple_copy.
  rewrite bind_run. unfold get_name at 1. rewrite Ha. simpl.
  rewrite bind_run. unfold deref at 1. rewrite Hl. reflexivity.
Qed.

Lemma Apple_assign_run this a l c lo co σ :
  objs σ !! a = Some (MkApple (Some l)) →
  heap σ !! l = Some c →
  objs σ !! this = Some (MkApple (Some lo)) →
  heap σ !! lo = Some co →
  Apple_assign this a σ =
  Some (this, State (<[this := MkApple (Some (pick_loc σ))]> (objs σ))
                    (drop_ref lo co (<[pick_loc σ := Cell (str c) 1]> (heap σ)))
                    (out σ ++ ["operator="])).
Proof.
  intros Ha Hl Hthis Hlo. unfold Apple_assign.
  rewrite bind_run. unfold get_name at 1. rewrite Ha. simpl.
  rewrite bind_run. unfold deref at 1. rewrite Hl.
  rewrite bind_run. unfold make_shared at 1. simpl.
  rewrite bind_run. unfold swap_name at 1. simpl. rewrite Hthis. simpl.
  rewrite bind_run. unfold release at 1. simpl.
  rewrite lookup_insert_ne by eauto using pick_loc_ne.
  rewrite Hlo. reflexivity.
Qed.

Lemma destroy_run a l c σ :
  objs σ !! a = Some (MkApple (Some l)) →
  heap σ !! l = Some c →
  destroy a σ =
  Some ((), State (delete a (objs σ)) (drop_ref l c (heap σ)) (out σ)).
Proof.
  intros Ha Hl. unfold destroy, Apple_dtor.
  rewrite !bind_run. unfold get_name at 1. rewrite Ha. simpl.
  rewrite Hl. reflexivity.
Qed.

(** Destroying an instance that was the last one constructed, on fresh
    storage with a fresh payload, gives back the memory as it was. *)
Lemma destroy_fresh a l s os h o :
  os !! a = None → h !! l = None →
  destroy a (State (<[a := MkApple (Some l)]> os) (<[l := Cell s 1]> h) o) =
  Some ((), State os h o).
Proof.
  intros Ha Hl.
  rewrite (destroy_run a l (Cell s 1)); simpl; rewrite ?lookup_insert_eq; try done.
  unfold drop_ref. simpl. destruct (decide (1 ≤ 1)); [|lia].
  by rewrite !delete_insert_id.
Qed.

Lemma call_func_run x l c σ :
  objs σ !! x = Some (MkApple (Some l)) →
  heap σ !! l = Some c →
  call_func x σ =
  Some ((), State (objs σ) (heap σ) (out σ ++ ["copy constructor"; "func"])).
Proof.
  intros Hx Hl. unfold call_func.
  rewrite bind_run. unfold alloca at 1.
  rewrite bind_run, (Apple_copy_run _ x l c) by done.
  rewrite bind_run. unfold func. rewrite print_run. simpl.
  rewrite destroy_fresh by auto using pick_loc_fresh, pick_addr_fresh.
  by rewrite <- app_assoc.
Qed.

(** [main] runs to completion from any memory, returns 0, gives back all
    the memory it used and appends [main_lines] to the output. *)
Lemma main_run σ :
  main σ = Some (0%Z, State (objs σ) (heap σ) (out σ ++ main_lines)).
Proof.
  destruct σ as [os0 h0 o0]. unfold main.
  (* Apple _1; *)
  rewrite bind_run. unfold alloca at 1. cbv beta iota.
  rewrite bind_run, Apple_default_run. cbv beta iota.
  set (σ0 := State os0 h0 o0).
  pose proof (pick_addr_fresh σ0) as Ha1. pose proof (pick_loc_fresh σ0) as Hl1.
  generalize dependent (pick_addr σ0). generalize dependent (pick_loc σ0).
  intros l1 Hl1 a1 Ha1. subst σ0. cbn [objs heap out] in *.
  (* Apple _2(_1); *)
  set (σ1 := State _ _ _).
  rewrite bind_run. unfold alloca at 1. cbv beta iota.
  rewrite bind_run, (Apple_copy_run _ a1 l1 (Cell "" 1))
    by (subst σ1; cbn [objs heap]; apply lookup_insert_eq).
  cbv beta iota.
  pose proof (pick_addr_fresh σ1) as Ha2. pose proof (pick_loc_fresh σ1) as Hl2.
  generalize dependent (pick_addr σ1). generalize dependent (pick_loc σ1).
  intros l2 Hl2 a2 Ha2. subst σ1. cbn [objs heap out str] in *.
  (* Apple _3 = _2; *)
  set (σ2 := State _ _ _).
  rewrite bind_run. unfold alloca at 1. cbv beta iota.
  rewrite bind_run, (Apple_copy_run _ a2 l2 (Cell "" 1))
    by (subst σ2; cbn [objs heap]; apply lookup_insert_eq).
  cbv beta iota.
  pose proof (pick_addr_fresh σ2) as Ha3. pose proof (pick_loc_fresh σ2) as Hl3.
  generalize dependent (pick_addr σ2). generalize dependent (pick_loc σ2).
  intros l3 Hl3 a3 Ha3. subst σ2. cbn [objs heap out str] in *.
  (* cout << "test func parameter" << endl; *)
  rewrite bind_run, print_run. cbv beta iota. cbn [objs heap out].
  (* func(_1); r_func(_1); p_func(&_1); *)
  assert (a3 ≠ a1 ∧ a2 ≠ a1 ∧ l3 ≠ l1 ∧ l2 ≠ l1) as (? & ? & ? & ?).
  { repeat split; intros ->.
    - rewrite lookup_insert_ne, lookup_insert_eq in Ha3; [done|].
      intros ->. by rewrite lookup_insert_eq in Ha2.
    - by rewrite lookup_insert_eq in Ha2.
    - rewrite lookup_insert_ne, lookup_insert_eq in Hl3; [done|].
      intros ->. by rewrite lookup_insert_eq in Hl2.
    - by rewrite lookup_insert_eq in Hl2. }
  rewrite bind_run, (call_func_run a1 l1 (Cell "" 1))
    by (cbn [objs heap]; by rewrite !lookup_insert_ne, lookup_insert_eq by done).
  cbv beta iota. cbn [objs heap out].
  rewrite bind_run. unfold r_func. rewrite print_run. cbv beta iota. cbn [objs heap out].
  rewrite bind_run. unfold p_func. rewrite print_run. cbv beta iota. cbn [objs heap out].
  (* return 0; *)
  rewrite bind_run, destroy_fresh by done. cbv beta iota.
  rewrite bind_run, destroy_fresh by done. cbv beta iota.
  rewrite bind_run, destroy_fresh by done. cbv beta iota.
  unfold main_lines. rewrite <- !app_assoc. reflexivity.
Qed.

End runs.

(** ** Preservation of the class invariant *)

Section invariant.
Implicit Types (σ : state) (a this : positive) (l : positive) (c : cell).

Lemma inv_spec σ :
  inv σ ↔
  (∀ a o, objs σ !! a = Some o →
          ∃ l c, name o = Some l ∧ heap σ !! l = Some c ∧ use_count c = 1) ∧
  (∀ a b oa ob, objs σ !! a = Some oa → objs σ !! b = Some ob →
                name oa = name ob → a = b).
Proof.
  unfold inv. rewrite !map_Forall_lookup. split.
  - intros [Hown Hsep]. split.
    + intros a o Ha. specialize (Hown a o Ha). unfold owns in Hown.
      destruct (name o) as [l|]; [|done].
      destruct (heap σ !! l) as [c|] eqn:Hc; [|done]. by exists l, c.
    + intros a b oa ob Ha Hb. specialize (Hsep a oa Ha).
      rewrite map_Forall_lookup in Hsep. by apply Hsep.
  - intros [Hown Hsep]. split.
    + intros a o Ha. destruct (Hown a o Ha) as (l & c & Hn & Hc & Hu).
      unfold owns. by rewrite Hn, Hc.
    + intros a oa Ha. rewrite map_Forall_lookup. intros b ob Hb. by apply Hsep.
Qed.

(** A live instance of a state that satisfies the invariant has a
    payload. *)
Lemma inv_live σ a :
  inv σ → is_Some (objs σ !! a) →
  ∃ l c, objs σ !! a = Some (MkApple (Some l)) ∧ heap σ !! l = Some c ∧
         use_count c = 1.
Proof.
  intros [Hown _]%inv_spec [[p] Ha].
  destruct (Hown a _ Ha) as (l & c & Hn & Hc & Hu). simpl in Hn. subst p.
  by exists l, c.
Qed.

Lemma inv_empty h o : inv (State ∅ h o).
Proof. apply inv_spec. split; intros *; cbn [objs]; by rewrite lookup_empty. Qed.

(** An instance constructed with a newly allocated payload. *)
Lemma inv_construct σ a l s o :
  inv σ → heap σ !! l = None →
  inv (State (<[a := MkApple (Some l)]> (objs σ)) (<[l := Cell s 1]> (heap σ)) o).
Proof.
  intros [Hown Hsep]%inv_spec Hl. apply inv_spec. cbn [objs heap]. split.
  - intros b ob [[-> <-]|[Hne Hb]]%lookup_insert_Some.
    + exists l, (Cell s 1). by rewrite lookup_insert_eq.
    + destruct (Hown b ob Hb) as (l' & c & Hn & Hc & Hu).
      exists l', c. rewrite lookup_insert_ne; [done|]. intros ->. congruence.
  - intros b b' ob ob' [[-> <-]|[Hne Hb]]%lookup_insert_Some
                       [[-> <-]|[Hne' Hb']]%lookup_insert_Some Hn; simpl in Hn.
    + done.
    + destruct (Hown b' ob' Hb') as (l' & c & Hn' & Hc & Hu). congruence.
    + destruct (Hown b ob Hb) as (l' & c & Hn' & Hc & Hu). congruence.
    + by apply (Hsep b b' ob ob').
Qed.

(** An instance destroyed, its payload released. *)
Lemma inv_destroy σ a l c o :
  inv σ → objs σ !! a = Some (MkApple (Some l)) → heap σ !! l = Some c →
  inv (State (delete a (objs σ)) (drop_ref l c (heap σ)) o).
Proof.
  intros [Hown Hsep]%inv_spec Ha Hl. apply inv_spec. cbn [objs heap]. split.
  - intros b ob [Hne Hb]%lookup_delete_Some.
    destruct (Hown b ob Hb) as (l' & c' & Hn & Hc & Hu).
    exists l', c'. split; [done|]. split; [|done].
    assert (l ≠ l') as Hll.
    { intros ->. apply Hne. apply (Hsep a b _ ob Ha Hb). by rewrite Hn. }
    unfold drop_ref. destruct (decide (use_count c ≤ 1)).
    + by rewrite lookup_delete_ne.
    + by rewrite lookup_insert_ne.
  - intros b b' ob ob' [_ Hb]%lookup_delete_Some [_ Hb']%lookup_delete_Some.
    by apply Hsep.
Qed.

(** An instance assigned a newly allocated payload, its previous one
    released. *)
Lemma inv_assign σ this lo co l s o :
  inv σ → objs σ !! this = Some (MkApple (Some lo)) → heap σ !! lo = Some co →
  heap σ !! l = None →
  inv (State (<[this := MkApple (Some l)]> (objs σ))
             (drop_ref lo co (<[l := Cell s 1]> (heap σ))) o).
Proof.
  intros Hinv Hthis Hlo Hl.
  pose proof (inv_destroy σ this lo co o Hinv Hthis Hlo) as Hd.
  assert (lo ≠ l) as Hne by (intros ->; congruence).
  apply (inv_construct _ this l s o) in Hd; cbn [objs heap] in *.
  - rewrite insert_delete_eq in Hd.
    replace (drop_ref lo co (<[l:=Cell s 1]> (heap σ)))
      with (<[l:=Cell s 1]> (drop_ref lo co (heap σ))); [done|].
    unfold drop_ref. destruct (decide (use_count co ≤ 1)).
    + by rewrite delete_insert_ne.
    + by rewrite insert_insert_ne.
  - unfold drop_ref. destruct (decide (use_count co ≤ 1)).
    + by rewrite lookup_delete_ne.
    + by rewrite lookup_insert_ne.
Qed.

(** The invariant does not speak about the output. *)
Lemma inv_out σ o : inv σ → inv (State (objs σ) (heap σ) o).
Proof. intros Hinv. exact Hinv. Qed.

End invariant.

(** ** What each operation does to the instances *)

Section effects.
Context `{Allocator}.
Implicit Types (σ : state) (a this : positive) (l : positive) (c : cell).

Lemma drop_ref_lookup_ne l l' c (h : gmap positive cell) :
  l ≠ l' → drop_ref l c h !! l' = h !! l'.
Proof.
  intros Hne. unfold drop_ref. destruct (decide (use_count c ≤ 1)).
  - by rewrite lookup_delete_ne.
  - by rewrite lookup_insert_ne.
Qed.


Lemma inv_payload σ a : inv σ → is_Some (objs σ !! a) → is_Some (payload σ a).
Proof.
  intros Hinv Ha. destruct (inv_live σ a Hinv Ha) as (l & c & Hl & Hc & _).
  exists (str c). apply payload_Some. by exists l, c.
Qed.

(** The state after a constructor has run: the new instance holds the
    content [s] at the location [l], which was not in use before. *)
Lemma constructed_payload σ this l s o :
  payload (State (<[this := MkApple (Some l)]> (objs σ))
                 (<[l := Cell s 1]> (heap σ)) o) this = Some s.
Proof.
  apply payload_Some. exists l, (Cell s 1). cbn [objs heap].
  by rewrite !lookup_insert_eq.
Qed.

Lemma constructed_other σ this a l la ca s o :
  this ≠ a →
  objs σ !! a = Some (MkApple (Some la)) → heap σ !! la = Some ca →
  heap σ !! l = None →
  payload (State (<[this := MkApple (Some l)]> (objs σ))
                 (<[l := Cell s 1]> (heap σ)) o) a = Some (str ca).
Proof.
  intros Hne Ha Hla Hl. apply payload_Some. exists la, ca. cbn [objs heap].
  rewrite !lookup_insert_ne; [done| |done]. intros ->. congruence.
Qed.

Lemma Apple_assign_effect σ this a s :
  payload σ a = Some s → is_Some (payload σ this) →
  ∃ lo co σ',
    objs σ !! this = Some (MkApple (Some lo)) ∧ heap σ !! lo = Some co ∧
    σ' = State (<[this := MkApple (Some (pick_loc σ))]> (objs σ))
               (drop_ref lo co (<[pick_loc σ := Cell s 1]> (heap σ)))
               (out σ ++ ["operator="]) ∧
    Apple_assign this a σ = Some (this, σ') ∧
    payload σ' this = Some s.
Proof.
  intros (l & c & Ha & Hc & <-)%payload_Some [s' (lo & co & Hthis & Hco & _)%payload_Some].
  exists lo, co. eexists. do 3 (split; [done|]). split.
  - by apply (Apple_assign_run this a l c lo co).
  - apply payload_Some. exists (pick_loc σ), (Cell (str c) 1). cbn [objs heap].
    rewrite lookup_insert_eq, drop_ref_lookup_ne, lookup_insert_eq; [done|].
    intros ->. by rewrite pick_loc_fresh in Hco.
Qed.

Lemma Apple_assign_inv σ this a :
  inv σ → is_Some (objs σ !! a) → is_Some (objs σ !! this) →
  ∃ σ', Apple_assign this a σ = Some (this, σ') ∧ inv σ' ∧
        objs σ' = <[this := MkApple (Some (pick_loc σ))]> (objs σ) ∧
        out σ' = out σ ++ ["operator="] ∧
        payload σ' this = payload σ a.
Proof.
  intros Hinv Ha Hthis.
  destruct (inv_payload σ a Hinv Ha) as [s Hs].
  destruct (Apple_assign_effect σ this a s Hs (inv_payload σ this Hinv Hthis))
    as (lo & co & σ1 & Hlo & Hco & -> & Hrun & Hp).
  eexists. split; [exact Hrun|]. split; [|by rewrite Hs].
  apply inv_assign; auto using pick_loc_fresh.
Qed.

End effects.

(** ** The special member functions *)

(** C6: every default construction runs to completion, logs exactly the one
    line "default constructor", and leaves an instance whose payload is an
    empty string at a location that was not in use before, owned by that
    instance alone. *)
Theorem default_construction `{Allocator} (σ : state) (this : positive) :
  ∃ l σ',
    Apple_default this σ = Some ((), σ') ∧
    out σ' = out σ ++ ["default constructor"] ∧
    heap σ !! l = None ∧
    payload_loc σ' this = Some l ∧
    heap σ' !! l = Some (Cell "" 1) ∧
    payload σ' this = Some "".
Proof.
  exists (pick_loc σ). eexists. split; [apply Apple_default_run|].
  cbn [out objs heap]. split; [done|]. split; [apply pick_loc_fresh|].
  split; [|split].
  - apply payload_loc_Some. cbn [objs]. apply lookup_insert_eq.
  - apply lookup_insert_eq.
  - apply constructed_payload.
Qed.

(** C4: copy-constructing a new instance [B] from a live instance [A] logs
    exactly the one line "copy constructor"; [B]'s payload has the content
    [A]'s payload had, [A] keeps its payload, and [B]'s payload lives at a
    location that was not in use before, so it is not the one of [A]. *)
Theorem copy_construction `{Allocator} (σ : state) (A B : positive) (s : string) :
  payload σ A = Some s →
  objs σ !! B = None →
  ∃ l l' σ',
    payload_loc σ A = Some l ∧
    Apple_copy B A σ = Some ((), σ') ∧
    out σ' = out σ ++ ["copy constructor"] ∧
    payload σ' B = Some s ∧
    payload σ' A = Some s ∧
    heap σ !! l' = None ∧
    payload_loc σ' B = Some l' ∧
    payload_loc σ' A = Some l ∧
    l' ≠ l.
Proof.
  intros (l & c & HA & Hc & <-)%payload_Some HB.
  assert (B ≠ A) as Hne by (intros ->; congruence).
  exists l, (pick_loc σ). eexists.
  split; [by apply payload_loc_Some|].
  split; [by apply (Apple_copy_run B A l c)|].
  cbn [out]. split; [done|].
  split; [apply constructed_payload|].
  split; [by apply (constructed_other σ B A _ l c); auto using pick_loc_fresh|].
  split; [apply pick_loc_fresh|].
  split; [|split].
  - apply payload_loc_Some. cbn [objs]. apply lookup_insert_eq.
  - apply payload_loc_Some. cbn [objs]. by rewrite lookup_insert_ne.
  - by apply (pick_loc_ne σ l c).
Qed.

Lemma copy_construction_witness :
  payload basket 1%positive = Some "fuji" ∧
  objs basket !! 4%positive = None ∧
  ∃ l l' σ',
    payload_loc basket 1%positive = Some l ∧
    @Apple_copy first_free 4%positive 1%positive basket = Some ((), σ') ∧
    out σ' = out basket ++ ["copy constructor"] ∧
    payload σ' 4%positive = Some "fuji" ∧
    payload σ' 1%positive = Some "fuji" ∧
    heap basket !! l' = None ∧
    payload_loc σ' 4%positive = Some l' ∧
    payload_loc σ' 1%positive = Some l ∧
    l' ≠ l.
Proof.
  split; [reflexivity|]. split; [reflexivity|].
  apply (@copy_construction first_free basket 1%positive 4%positive "fuji");
    reflexivity.
Defined.

(** C3: for live instances [A], [B] and [C] of a store that satisfies the
    class invariant, [B = A] logs exactly the one line "operator=", leaves
    [B] with the content [A] had, and returns [B]; the chained assignment
    [C = B = A] assigns twice, logs "operator=" twice, and leaves [C] with
    the content [A] had. *)
Theorem copy_assignment `{Allocator} (σ : state) (A B C : positive) :
  inv σ →
  is_Some (objs σ !! A) → is_Some (objs σ !! B) → is_Some (objs σ !! C) →
  ∃ s σ' σ'',
    payload σ A = Some s ∧
    Apple_assign B A σ = Some (B, σ') ∧
    out σ' = out σ ++ ["operator="] ∧
    payload σ' B = Some s ∧
    (r ← Apple_assign B A; Apple_assign C r) σ = Some (C, σ'') ∧
    Apple_assign C B σ' = Some (C, σ'') ∧
    out σ'' = out σ ++ ["operator="; "operator="] ∧
    payload σ'' C = Some s.
Proof.
  intros Hinv HA HB HC.
  destruct (inv_payload σ A Hinv HA) as [s Hs].
  destruct (Apple_assign_inv σ B A Hinv HA HB) as (σ' & Hrun & Hinv' & Hobjs & Hout & Hp).
  assert (is_Some (objs σ' !! B)) as HB' by (rewrite Hobjs, lookup_insert_eq; eauto).
  assert (is_Some (objs σ' !! C)) as HC'.
  { rewrite Hobjs. apply lookup_insert_is_Some.
    destruct (decide (B = C)); [by left|by right]. }
  destruct (Apple_assign_inv σ' C B Hinv' HB' HC') as (σ'' & Hrun' & _ & _ & Hout' & Hp').
  exists s, σ', σ''. split; [done|]. split; [done|]. split; [done|].
  split; [congruence|]. split; [by rewrite bind_run, Hrun|]. split; [done|].
  split; [|congruence].
  by rewrite Hout', Hout, <- app_assoc.
Qed.

Lemma copy_assignment_witness :
  inv basket ∧
  ∃ s σ' σ'',
    payload basket 1%positive = Some s ∧
    @Apple_assign first_free 2%positive 1%positive basket = Some (2%positive, σ') ∧
    out σ' = out basket ++ ["operator="] ∧
    payload σ' 2%positive = Some s ∧
    (r ← @Apple_assign first_free 2%positive 1%positive;
     @Apple_assign first_free 3%positive r) basket = Some (3%positive, σ'') ∧
    @Apple_assign first_free 3%positive 2%positive σ' = Some (3%positive, σ'') ∧
    out σ'' = out basket ++ ["operator="; "operator="] ∧
    payload σ'' 3%positive = Some s.
Proof.
  assert (inv basket) as Hinv by (refine (bool_decide_unpack _ _); vm_compute; exact I).
  split; [exact Hinv|].
  apply (@copy_assignment first_free basket 1%positive 2%positive 3%positive Hinv);
    vm_compute; eauto.
Defined.

(** C2: self-assignment [a = a] of a live instance takes the same path as
    any assignment: it allocates a duplicate of the payload at a location
    that was not in use, makes the instance point to it, logs "operator=",
    returns the instance, and the content of the payload is what it was. *)
Theorem self_assignment `{Allocator} (σ : state) (a : positive) (s : string) :
  payload σ a = Some s →
  ∃ l l' σ',
    payload_loc σ a = Some l ∧
    Apple_assign a a σ = Some (a, σ') ∧
    heap σ !! l' = None ∧ l' ≠ l ∧
    payload_loc σ' a = Some l' ∧
    heap σ' !! l' = Some (Cell s 1) ∧
    out σ' = out σ ++ ["operator="] ∧
    payload σ' a = Some s.
Proof.
  intros Hs.
  destruct (Apple_assign_effect σ a a s Hs) as (l & c & σ' & Ha & Hc & -> & Hrun & Hp);
    [by eauto|].
  assert (l ≠ pick_loc σ) as Hne by (intros ->; by rewrite pick_loc_fresh in Hc).
  exists l, (pick_loc σ). eexists.
  split; [by apply payload_loc_Some|]. split; [exact Hrun|].
  split; [apply pick_loc_fresh|]. split; [done|].
  cbn [objs heap out]. split; [|split; [|done]].
  - apply payload_loc_Some. cbn [objs]. apply lookup_insert_eq.
  - by rewrite drop_ref_lookup_ne, lookup_insert_eq.
Qed.

Lemma self_assignment_witness :
  payload basket 3%positive = Some "gala" ∧
  ∃ l l' σ',
    payload_loc basket 3%positive = Some l ∧
    @Apple_assign first_free 3%positive 3%positive basket = Some (3%positive, σ') ∧
    heap basket !! l' = None ∧ l' ≠ l ∧
    payload_loc σ' 3%positive = Some l' ∧
    heap σ' !! l' = Some (Cell "gala" 1) ∧
    out σ' = out basket ++ ["operator="] ∧
    payload σ' 3%positive = Some "gala".
Proof.
  split; [reflexivity|].
  apply (@self_assignment first_free basket 3%positive "gala"). reflexivity.
Defined.

(** ** Parameter passing *)

(** C5: for a live instance [x], the call [func(x)] copy-constructs the
    parameter from [x] (one line "copy constructor"), then the body logs
    "func", then the parameter is destroyed; [r_func(x)] and [p_func(&x)]
    touch no instance and no string and log only "r_func" and "p_func". *)
Theorem parameter_passing `{Allocator} (σ : state) (x : positive) :
  is_Some (payload σ x) →
  (∃ app σ1 σ2 σ',
     objs σ !! app = None ∧
     Apple_copy app x σ = Some ((), σ1) ∧
     out σ1 = out σ ++ ["copy constructor"] ∧
     func app σ1 = Some ((), σ2) ∧
     out σ2 = out σ1 ++ ["func"] ∧
     destroy app σ2 = Some ((), σ') ∧
     call_func x σ = Some ((), σ') ∧
     out σ' = out σ ++ ["copy constructor"; "func"]) ∧
  r_func x σ = Some ((), State (objs σ) (heap σ) (out σ ++ ["r_func"])) ∧
  p_func (Some x) σ = Some ((), State (objs σ) (heap σ) (out σ ++ ["p_func"])).
Proof.
  intros [s (l & c & Hx & Hc & _)%payload_Some].
  split; [|split; reflexivity].
  exists (pick_addr σ). do 3 eexists.
  split; [apply pick_addr_fresh|].
  split; [by apply (Apple_copy_run _ x l c)|].
  split; [done|]. split; [apply print_run|]. split; [done|]. cbn [objs heap out].
  split; [apply destroy_fresh; auto using pick_addr_fresh, pick_loc_fresh|].
  split; [|by rewrite <- app_assoc].
  rewrite (call_func_run x l c) by done. by rewrite <- app_assoc.
Qed.

Lemma parameter_passing_witness :
  is_Some (payload basket 1%positive) ∧
  (∃ app σ1 σ2 σ',
     objs basket !! app = None ∧
     @Apple_copy first_free app 1%positive basket = Some ((), σ1) ∧
     out σ1 = out basket ++ ["copy constructor"] ∧
     func app σ1 = Some ((), σ2) ∧
     out σ2 = out σ1 ++ ["func"] ∧
     destroy app σ2 = Some ((), σ') ∧
     @call_func first_free 1%positive basket = Some ((), σ') ∧
     out σ' = out basket ++ ["copy constructor"; "func"]) ∧
  r_func 1%positive basket =
    Some ((), State (objs basket) (heap basket) (out basket ++ ["r_func"])) ∧
  p_func (Some 1%positive) basket =
    Some ((), State (objs basket) (heap basket) (out basket ++ ["p_func"])).
Proof.
  assert (is_Some (payload basket 1%positive)) as Hx by (vm_compute; eauto).
  split; [exact Hx|].
  exact (@parameter_passing first_free basket 1%positive Hx).
Defined.

(** C9: the by-value call [func(x)] on a live instance [x] leaves the
    caller's memory as it was: the same instances with the same pointers and
    the same strings at the same locations; in particular [x] has the payload
    it had, at the location it had. *)
Theorem func_frame `{Allocator} (σ : state) (x : positive) :
  is_Some (payload σ x) →
  ∃ σ',
    call_func x σ = Some ((), σ') ∧
    objs σ' = objs σ ∧
    heap σ' = heap σ ∧
    payload_loc σ' x = payload_loc σ x ∧
    payload σ' x = payload σ x.
Proof.
  intros [s (l & c & Hx & Hc & _)%payload_Some].
  eexists. split; [by apply (call_func_run x l c)|]. done.
Qed.

Lemma func_frame_witness :
  is_Some (payload basket 2%positive) ∧
  ∃ σ',
    @call_func first_free 2%positive basket = Some ((), σ') ∧
    objs σ' = objs basket ∧
    heap σ' = heap basket ∧
    payload_loc σ' 2%positive = payload_loc basket 2%positive ∧
    payload σ' 2%positive = payload basket 2%positive.
Proof.
  assert (is_Some (payload basket 2%positive)) as Hx by (vm_compute; eauto).
  split; [exact Hx|].
  exact (@func_frame first_free basket 2%positive Hx).
Defined.

Lemma do_calls_run (x : positive) (ks : list call) (σ : state) :
  do_calls x ks σ =
  Some ((), State (objs σ) (heap σ) (out σ ++ (line_of <$> ks))).
Proof.
  revert σ. induction ks as [|k ks IH]; intros σ.
  - cbn. rewrite app_nil_r. by destruct σ.
  - cbn [do_calls]. rewrite bind_run.
    assert (do_call x k σ = Some ((), State (objs σ) (heap σ) (out σ ++ [line_of k])))
      as -> by (by destruct k).
    rewrite IH. cbn [objs heap out fmap list_fmap].
    by rewrite <- app_assoc.
Qed.

(** C8: any number of calls of [r_func] and [p_func] with one instance, in
    any order, run to completion and leave every instance and every string
    as they were, so the instance has the payload it had at the location it
    had; the calls log one line each, none of them "copy constructor". *)
Theorem reference_calls_idempotent (σ : state) (x : positive) (ks : list call) :
  ∃ σ',
    do_calls x ks σ = Some ((), σ') ∧
    objs σ' = objs σ ∧
    heap σ' = heap σ ∧
    payload_loc σ' x = payload_loc σ x ∧
    payload σ' x = payload σ x ∧
    out σ' = out σ ++ (line_of <$> ks) ∧
    "copy constructor" ∉ (line_of <$> ks).
Proof.
  eexists. split; [apply do_calls_run|].
  do 5 (split; [done|]).
  intros (k & Hk & _)%list_elem_of_fmap. by destruct k.
Qed.

(** ** The class invariant holds throughout *)

(** C7: in a store that satisfies the class invariant (the store with no
    instance is one), default construction runs to completion, leaves the
    instance it constructed with a payload (its pointer is not null and the
    string it points to is alive), and leaves a store that satisfies the
    invariant again; every live instance of such a store has a payload; and
    copy construction from a live instance and copy assignment between live
    instances do the same as default construction does. *)
Theorem payload_never_absent `{Allocator} (σ : state) (new this a : positive) :
  inv σ →
  (∃ σ', Apple_default new σ = Some ((), σ') ∧
         is_Some (payload σ' new) ∧ inv σ') ∧
  (is_Some (objs σ !! a) →
   is_Some (payload σ a) ∧
   (∃ σ', Apple_copy new a σ = Some ((), σ') ∧
          is_Some (payload σ' new) ∧ inv σ') ∧
   (is_Some (objs σ !! this) →
    ∃ σ', Apple_assign this a σ = Some (this, σ') ∧
          is_Some (payload σ' this) ∧ inv σ')).
Proof.
  intros Hinv. split.
  { eexists. split; [apply Apple_default_run|]. split.
    - rewrite constructed_payload. eauto.
    - apply inv_construct; auto using pick_loc_fresh. }
  intros Ha.
  destruct (inv_live σ a Hinv Ha) as (l & c & Hl & Hc & _).
  split; [by apply inv_payload|]. split.
  - eexists. split; [by apply (Apple_copy_run new a l c)|]. split.
    + rewrite constructed_payload. eauto.
    + apply inv_construct; auto using pick_loc_fresh.
  - intros Hthis.
    destruct (Apple_assign_inv σ this a Hinv Ha Hthis) as (σ' & Hrun & Hinv' & Hobjs & _ & Hp).
    exists σ'. split; [done|]. split; [|done].
    rewrite Hp. by apply inv_payload.
Qed.

Lemma payload_never_absent_witness :
  (inv (start ∅ ∅) ∧
   ∃ σ', @Apple_default first_free 1%positive (start ∅ ∅) = Some ((), σ') ∧
         is_Some (payload σ' 1%positive) ∧ inv σ') ∧
  inv basket ∧
  (∃ σ', @Apple_default first_free 7%positive basket = Some ((), σ') ∧
         is_Some (payload σ' 7%positive) ∧ inv σ') ∧
  is_Some (payload basket 1%positive) ∧
  (∃ σ', @Apple_copy first_free 7%positive 1%positive basket = Some ((), σ') ∧
         is_Some (payload σ' 7%positive) ∧ inv σ') ∧
  (∃ σ', @Apple_assign first_free 2%positive 1%positive basket = Some (2%positive, σ') ∧
         is_Some (payload σ' 2%positive) ∧ inv σ').
Proof.
  assert (inv (start ∅ ∅)) as Hinv0
    by (refine (bool_decide_unpack _ _); vm_compute; exact I).
  assert (inv basket) as Hinv by (refine (bool_decide_unpack _ _); vm_compute; exact I).
  assert (is_Some (objs basket !! 1%positive)) as Ha by (vm_compute; eauto).
  assert (is_Some (objs basket !! 2%positive)) as Hthis by (vm_compute; eauto).
  split.
  { split; [exact Hinv0|].
    exact (proj1 (@payload_never_absent first_free (start ∅ ∅)
                    1%positive 1%positive 1%positive Hinv0)). }
  split; [exact Hinv|].
  destruct (@payload_never_absent first_free basket 7%positive 2%positive 1%positive Hinv)
    as [Hdefault Hrest].
  destruct (Hrest Ha) as (Hpayload & Hcopy & Hassign).
  split; [exact Hdefault|]. split; [exact Hpayload|]. split; [exact Hcopy|].
  exact (Hassign Hthis).
Defined.

(** ** The whole program *)

(** C1, as the code has it: from any memory and with any allocator, [main]
    runs to completion, returns 0 and writes exactly the eight lines
    "default constructor", "copy constructor", "copy constructor",
    "test func parameter", "copy constructor", "func", "r_func", "p_func";
    [Apple _3 = _2] is an initialisation and runs the copy constructor, so
    no line "operator=" is written. *)
Theorem main_output `{Allocator} (os : gmap positive Apple) (h : gmap positive cell) :
  observe (main (start os h)) =
  Some (0%Z, ["default constructor"; "copy constructor"; "copy constructor";
              "test func parameter"; "copy constructor"; "func"; "r_func";
              "p_func"]).
Proof. by rewrite main_run. Qed.

(** C1, as the claim lists the lines: the run of [main] does not write the
    nine lines with "operator=" in fourth place. *)
Lemma main_output_not_as_listed :
  observe (@main first_free (start ∅ ∅)) ≠
  Some (0%Z, ["default constructor"; "copy constructor"; "copy constructor";
              "operator="; "test func parameter"; "copy constructor"; "func";
              "r_func"; "p_func"]).
Proof. vm_compute. discriminate. Qed.

(** C10: whatever addresses the allocator hands out and whatever else is in
    memory when the program starts, [main] runs to completion and any two
    runs show the same exit code and the same lines on standard output. *)
Theorem main_deterministic (A1 A2 : Allocator)
    (os1 os2 : gmap positive Apple) (h1 h2 : gmap positive cell) :
  ∃ code lines,
    observe (@main A1 (start os1 h1)) = Some (code, lines) ∧
    observe (@main A2 (start os2 h2)) = Some (code, lines).
Proof. do 2 eexists. by rewrite !main_run. Qed.

(** ** Memory: what the operations leave alone and what they give back *)

Section memory.
Context `{Allocator}.
Implicit Types (σ : state) (a this : positive) (l : positive) (c : cell).

Lemma drop_ref_last l c (h : gmap positive cell) :
  use_count c = 1 → drop_ref l c h = delete l h.
Proof. intros Hc. unfold drop_ref. rewrite Hc. by destruct (decide (1 ≤ 1)); [|lia]. Qed.

Lemma tidy_spec σ :
  tidy σ ↔
  ∀ l c, heap σ !! l = Some c → ∃ a, objs σ !! a = Some (MkApple (Some l)).
Proof.
  unfold tidy. rewrite map_Forall_lookup. split; intros Ht l c Hl.
  - destruct (Ht l c Hl) as (a & [p] & Ha & Hn). simpl in Hn. subst p. eauto.
  - destruct (Ht l c Hl) as [a Ha]. by exists a, (MkApple (Some l)).
Qed.

(** In a store that satisfies the invariant, an instance other than the
    owner of [lo] does not notice that [lo] is freed and that an unused
    location [l] is filled. *)
Lemma payload_other σ b lo l s (os : gmap positive Apple) o :
  inv σ →
  (∀ ob, objs σ !! b = Some ob → name ob ≠ Some lo) →
  heap σ !! l = None →
  os !! b = objs σ !! b →
  payload (State os (delete lo (<[l := Cell s 1]> (heap σ))) o) b = payload σ b.
Proof.
  intros Hinv Hlo Hl Hos. unfold payload, payload_loc. cbn [objs heap]. rewrite Hos.
  destruct (objs σ !! b) as [[[lb|]]|] eqn:Hb; simpl; [|done..].
  destruct (inv_live σ b Hinv) as (lb' & cb & Hb' & Hcb & _); [by rewrite Hb|].
  rewrite Hb in Hb'. injection Hb' as <-.
  rewrite lookup_delete_ne, lookup_insert_ne; [done| |].
  - intros ->. congruence.
  - intros ->. by apply (Hlo _ eq_refl).
Qed.

(** The state [operator=] leaves in a store that satisfies the invariant. *)
Lemma Apple_assign_state σ this a :
  inv σ → is_Some (objs σ !! a) → is_Some (objs σ !! this) →
  ∃ s lo co,
    payload σ a = Some s ∧
    objs σ !! this = Some (MkApple (Some lo)) ∧ heap σ !! lo = Some co ∧
    Apple_assign this a σ =
    Some (this, State (<[this := MkApple (Some (pick_loc σ))]> (objs σ))
                      (delete lo (<[pick_loc σ := Cell s 1]> (heap σ)))
                      (out σ ++ ["operator="])).
Proof.
  intros Hinv Ha Hthis.
  destruct (inv_payload σ a Hinv Ha) as [s Hs].
  destruct (inv_live σ this Hinv Hthis) as (lo & co & Hlo & Hco & Hu).
  destruct (Apple_assign_effect σ this a s Hs (inv_payload σ this Hinv Hthis))
    as (lo' & co' & σ1 & Hlo' & Hco' & -> & Hrun & _).
  rewrite Hlo in Hlo'. injection Hlo' as <-.
  rewrite Hco in Hco'. injection Hco' as <-.
  exists s, lo, co. do 3 (split; [done|]).
  by rewrite Hrun, (drop_ref_last lo co).
Qed.

(** No instance but [this] has the payload of [this]. *)
Lemma inv_sole_owner σ this lo b ob :
  inv σ → objs σ !! this = Some (MkApple (Some lo)) → b ≠ this →
  objs σ !! b = Some ob → name ob ≠ Some lo.
Proof.
  intros [_ Hsep]%inv_spec Hthis Hne Hb Hn.
  by apply Hne, (Hsep b this ob (MkApple (Some lo))).
Qed.

Lemma Apple_assign_frame σ this a b :
  inv σ → is_Some (objs σ !! a) → is_Some (objs σ !! this) → b ≠ this →
  ∃ σ', Apple_assign this a σ = Some (this, σ') ∧ inv σ' ∧
        payload σ' this = payload σ a ∧
        objs σ' !! b = objs σ !! b ∧ payload σ' b = payload σ b.
Proof.
  intros Hinv Ha Hthis Hne.
  destruct (Apple_assign_inv σ this a Hinv Ha Hthis) as (σ' & Hrun & Hinv' & _ & _ & Hp).
  destruct (Apple_assign_state σ this a Hinv Ha Hthis)
    as (s & lo & co & Hs & Hlo & Hco & Hrun').
  rewrite Hrun in Hrun'. injection Hrun' as ->.
  eexists. split; [exact Hrun|]. split; [done|]. split; [done|].
  cbn [objs]. split; [by rewrite lookup_insert_ne|].
  apply payload_other; auto using pick_loc_fresh.
  - intros ob. by apply (inv_sole_owner σ this).
  - by rewrite lookup_insert_ne.
Qed.

End memory.

(** X1: from any memory and after any earlier output, [main] runs to
    completion, returns 0, appends its eight lines to the output, and gives
    back every object and every string it made: the instances and strings in
    memory are exactly those that were there when it started. *)
Theorem main_gives_back_memory `{Allocator} (σ : state) :
  ∃ σ',
    main σ = Some (0%Z, σ') ∧
    objs σ' = objs σ ∧
    heap σ' = heap σ ∧
    out σ' = out σ ++ ["default constructor"; "copy constructor";
                       "copy constructor"; "test func parameter";
                       "copy constructor"; "func"; "r_func"; "p_func"].
Proof. eexists. split; [apply main_run|]. done. Qed.

(** X2: in a store that satisfies the class invariant, [B = A] frees the
    string [B] had, so as many strings are alive afterwards as before; the
    same instances are alive; and every instance other than [B] keeps its
    pointer and its payload. *)
Theorem assignment_frame `{Allocator} (σ : state) (A B c : positive) :
  inv σ →
  is_Some (objs σ !! A) → is_Some (objs σ !! B) →
  c ≠ B →
  ∃ lo σ',
    payload_loc σ B = Some lo ∧
    Apple_assign B A σ = Some (B, σ') ∧
    heap σ' !! lo = None ∧
    size (heap σ') = size (heap σ) ∧
    dom (objs σ') = dom (objs σ) ∧
    objs σ' !! c = objs σ !! c ∧
    payload σ' c = payload σ c.
Proof.
  intros Hinv HA HB Hne.
  destruct (Apple_assign_state σ B A Hinv HA HB)
    as (s & lo & co & Hs & Hlo & Hco & Hrun).
  destruct (Apple_assign_frame σ B A c Hinv HA HB Hne) as (σ' & Hrun' & _ & _ & Hc & Hpc).
  rewrite Hrun in Hrun'. injection Hrun' as <-.
  exists lo. eexists. split; [by apply payload_loc_Some|]. split; [exact Hrun|].
  cbn [objs heap] in *. split; [apply lookup_delete_eq|]. split; [|split; [|done]].
  - rewrite map_size_delete_Some, map_size_insert_None; auto using pick_loc_fresh.
    rewrite lookup_insert_ne; [by eauto|].
    intros Heq. rewrite <- Heq, pick_loc_fresh in Hco. done.
  - by apply dom_insert_lookup_L.
Qed.

Lemma assignment_frame_witness :
  inv basket ∧
  ∃ lo σ',
    payload_loc basket 2%positive = Some lo ∧
    @Apple_assign first_free 2%positive 1%positive basket = Some (2%positive, σ') ∧
    heap σ' !! lo = None ∧
    size (heap σ') = size (heap basket) ∧
    dom (objs σ') = dom (objs basket) ∧
    objs σ' !! 3%positive = objs basket !! 3%positive ∧
    payload σ' 3%positive = payload basket 3%positive.
Proof.
  assert (inv basket) as Hinv by (refine (bool_decide_unpack _ _); vm_compute; exact I).
  split; [exact Hinv|].
  apply (@assignment_frame first_free basket 1%positive 2%positive 3%positive Hinv);
    [vm_compute; eauto..|done].
Defined.



Section leaks.
Context `{Allocator}.
Implicit Types (σ : state) (a this : positive) (l : positive) (c : cell).

Lemma tidy_construct σ a l s o :
  tidy σ → objs σ !! a = None →
  tidy (State (<[a := MkApple (Some l)]> (objs σ)) (<[l := Cell s 1]> (heap σ)) o).
Proof.
  intros Ht Ha. rewrite tidy_spec in Ht. rewrite tidy_spec. cbn [objs heap].
  intros l' c' [[-> _]|[Hne Hl']]%lookup_insert_Some.
  - exists a. apply lookup_insert_eq.
  - destruct (Ht l' c' Hl') as [b Hb]. exists b.
    rewrite lookup_insert_ne; [done|]. intros ->. congruence.
Qed.

Lemma tidy_destroy σ a l o :
  tidy σ → objs σ !! a = Some (MkApple (Some l)) →
  tidy (State (delete a (objs σ)) (delete l (heap σ)) o).
Proof.
  intros Ht Ha. rewrite tidy_spec in Ht. rewrite tidy_spec. cbn [objs heap].
  intros l' c' [Hne Hl']%lookup_delete_Some.
  destruct (Ht l' c' Hl') as [b Hb]. exists b.
  rewrite lookup_delete_ne; [done|]. intros ->. congruence.
Qed.

Lemma tidy_assign σ this lo l s o :
  tidy σ → objs σ !! this = Some (MkApple (Some lo)) → lo ≠ l →
  tidy (State (<[this := MkApple (Some l)]> (objs σ))
              (delete lo (<[l := Cell s 1]> (heap σ))) o).
Proof.
  intros Ht Hthis Hne.
  pose proof (tidy_destroy σ this lo o Ht Hthis) as Hd.
  apply (tidy_construct _ this l s o) in Hd; cbn [objs heap] in *.
  - by rewrite insert_delete_eq, <- delete_insert_ne in Hd.
  - apply lookup_delete_eq.
Qed.

(** The state the destruction of a live instance leaves in a store that
    satisfies the invariant. *)
Lemma destroy_state σ a :
  inv σ → is_Some (objs σ !! a) →
  ∃ l c, objs σ !! a = Some (MkApple (Some l)) ∧ heap σ !! l = Some c ∧
         use_count c = 1 ∧
         destroy a σ = Some ((), State (delete a (objs σ)) (delete l (heap σ)) (out σ)).
Proof.
  intros Hinv Ha. destruct (inv_live σ a Hinv Ha) as (l & c & Hl & Hc & Hu).
  exists l, c. do 3 (split; [done|]).
  by rewrite (destroy_run a l c), (drop_ref_last l c).
Qed.

End leaks.

(** X4: in a store that satisfies the class invariant, the end of the
    lifetime of a live instance runs to completion and writes nothing; the
    instance is gone and its string is freed; every other instance keeps its
    pointer and its payload; and the invariant holds again. *)
Theorem destruction `{Allocator} (σ : state) (a b : positive) :
  inv σ →
  is_Some (objs σ !! a) →
  b ≠ a →
  ∃ l σ',
    payload_loc σ a = Some l ∧
    destroy a σ = Some ((), σ') ∧
    objs σ' !! a = None ∧
    heap σ' !! l = None ∧
    out σ' = out σ ∧
    inv σ' ∧
    objs σ' !! b = objs σ !! b ∧
    payload σ' b = payload σ b.
Proof.
  intros Hinv Ha Hne.
  destruct (destroy_state σ a Hinv Ha) as (l & c & Hl & Hc & Hu & Hrun).
  exists l. eexists. split; [by apply payload_loc_Some|]. split; [exact Hrun|].
  cbn [objs heap out]. do 2 (split; [apply lookup_delete_eq|]). split; [done|].
  split.
  { rewrite <- (drop_ref_last l c) by done. by apply inv_destroy. }
  split; [by rewrite lookup_delete_ne|].
  unfold payload, payload_loc. cbn [objs heap]. rewrite lookup_delete_ne by done.
  destruct (objs σ !! b) as [[[lb|]]|] eqn:Hb; simpl; [|done..].
  rewrite lookup_delete_ne; [done|].
  intros <-. by apply (inv_sole_owner σ a l b _ Hinv Hl Hne Hb).
Qed.

Lemma destruction_witness :
  inv basket ∧
  ∃ l σ',
    payload_loc basket 3%positive = Some l ∧
    destroy 3%positive basket = Some ((), σ') ∧
    objs σ' !! 3%positive = None ∧
    heap σ' !! l = None ∧
    out σ' = out basket ∧
    inv σ' ∧
    objs σ' !! 1%positive = objs basket !! 1%positive ∧
    payload σ' 1%positive = payload basket 1%positive.
Proof.
  assert (inv basket) as Hinv by (refine (bool_decide_unpack _ _); vm_compute; exact I).
  split; [exact Hinv|].
  apply (@destruction first_free basket 3%positive 1%positive Hinv);
    [vm_compute; eauto|done].
Defined.

(** X5: nothing is leaked.  In a store in which every live string is the
    payload of a live instance (the store with no instance and no string is
    one), the default constructor, run on storage that holds no instance,
    leaves a store in which every live string again is the payload of a live
    instance; and if the store also satisfies the class invariant, so do the
    copy constructor from a live instance (on storage that holds no
    instance), the destruction of a live instance and the copy assignment
    between live instances. *)
Theorem no_string_leaked `{Allocator} (σ : state) (new this a : positive) :
  tidy σ →
  (objs σ !! new = None →
   ∃ σ', Apple_default new σ = Some ((), σ') ∧ tidy σ') ∧
  (inv σ → is_Some (objs σ !! a) →
   (objs σ !! new = None →
    ∃ σ', Apple_copy new a σ = Some ((), σ') ∧ tidy σ') ∧
   (∃ σ', destroy a σ = Some ((), σ') ∧ tidy σ') ∧
   (is_Some (objs σ !! this) →
    ∃ σ', Apple_assign this a σ = Some (this, σ') ∧ tidy σ')).
Proof.
  intros Ht. split.
  { intros Hnew. eexists. split; [apply Apple_default_run|]. by apply tidy_construct. }
  intros Hinv Ha.
  destruct (inv_live σ a Hinv Ha) as (l & c & Hl & Hc & _).
  split; [|split].
  - intros Hnew. eexists. split; [by apply (Apple_copy_run new a l c)|].
    by apply tidy_construct.
  - destruct (destroy_state σ a Hinv Ha) as (l' & c' & Hl' & _ & _ & Hrun).
    eexists. split; [exact Hrun|]. by apply tidy_destroy.
  - intros Hthis.
    destruct (Apple_assign_state σ this a Hinv Ha Hthis)
      as (s & lo & co & _ & Hlo & Hco & Hrun).
    eexists. split; [exact Hrun|]. apply tidy_assign; [done..|].
    intros ->. by rewrite pick_loc_fresh in Hco.
Qed.

Lemma no_string_leaked_witness :
  (tidy (start ∅ ∅) ∧
   ∃ σ', @Apple_default first_free 1%positive (start ∅ ∅) = Some ((), σ') ∧ tidy σ') ∧
  inv basket ∧ tidy basket ∧
  (∃ σ', @Apple_default first_free 4%positive basket = Some ((), σ') ∧ tidy σ') ∧
  (∃ σ', @Apple_copy first_free 4%positive 1%positive basket = Some ((), σ') ∧ tidy σ') ∧
  (∃ σ', destroy 1%positive basket = Some ((), σ') ∧ tidy σ') ∧
  (∃ σ', @Apple_assign first_free 2%positive 1%positive basket = Some (2%positive, σ') ∧
         tidy σ').
Proof.
  assert (tidy (start ∅ ∅)) as Ht0
    by (refine (bool_decide_unpack _ _); vm_compute; exact I).
  assert (inv basket) as Hinv by (refine (bool_decide_unpack _ _); vm_compute; exact I).
  assert (tidy basket) as Ht by (refine (bool_decide_unpack _ _); vm_compute; exact I).
  assert (is_Some (objs basket !! 1%positive)) as Ha by (vm_compute; eauto).
  assert (is_Some (objs basket !! 2%positive)) as Hthis by (vm_compute; eauto).
  assert (objs basket !! 4%positive = None) as Hnew by reflexivity.
  split.
  { split; [exact Ht0|].
    exact (proj1 (@no_string_leaked first_free (start ∅ ∅)
                    1%positive 1%positive 1%positive Ht0) eq_refl). }
  split; [exact Hinv|]. split; [exact Ht|].
  destruct (@no_string_leaked first_free basket 4%positive 2%positive 1%positive Ht)
    as [Hdefault Hrest].
  destruct (Hrest Hinv Ha) as (Hcopy & Hdestroy & Hassign).
  split; [exact (Hdefault Hnew)|]. split; [exact (Hcopy Hnew)|].
  split; [exact Hdestroy|]. exact (Hassign Hthis).
Defined.

(** X6: the copy constructor and the copy assignment dereference the
    pointer of their source unchecked.  The copy constructor is defined
    exactly when the source is a live instance whose pointer is not null and
    points to a live string; the copy assignment is undefined unless the
    source is such an instance and the target is alive. *)
Theorem unchecked_dereference `{Allocator} (σ : state) (this a : positive) :
  (is_Some (Apple_copy this a σ) ↔ is_Some (payload σ a)) ∧
  (is_Some (Apple_assign this a σ) →
   is_Some (payload σ a) ∧ is_Some (objs σ !! this)).
Proof.
  assert (∀ s, payload σ a = Some s → is_Some (payload σ a)) as Hsome by eauto.
  split; [split|].
  - unfold Apple_copy. rewrite bind_run. unfold get_name at 1.
    destruct (objs σ !! a) as [[[l|]]|] eqn:Ha; cbn [name];
      [|by intros [? [=]]..].
    rewrite bind_run. unfold deref at 1.
    destruct (heap σ !! l) as [c|] eqn:Hc; [|by intros [? [=]]].
    intros _. apply (Hsome (str c)), payload_Some. by exists l, c.
  - intros [s (l & c & Ha & Hc & _)%payload_Some].
    rewrite (Apple_copy_run this a l c) by done. eauto.
  - unfold Apple_assign. rewrite bind_run. unfold get_name at 1.
    destruct (objs σ !! a) as [[[l|]]|] eqn:Ha; cbn [name];
      [|by intros [? [=]]..].
    rewrite bind_run. unfold deref at 1.
    destruct (heap σ !! l) as [c|] eqn:Hc; [|by intros [? [=]]].
    rewrite bind_run. unfold make_shared at 1. cbv beta iota zeta.
    rewrite bind_run. unfold swap_name at 1. cbn [objs set_heap].
    destruct (objs σ !! this) as [o|] eqn:Hthis; [|by intros [? [=]]].
    intros _. split; [|by eauto].
    apply (Hsome (str c)), payload_Some. by exists l, c.
Qed.
